(** * evaluaT: the EU AI Act assessment wizard and its risk scoring

    The questionnaire wizard is the [AssessmentComponent] of
    [frontend/src/App.js]: a step cursor, a map of recorded answers and three
    handlers ([handleAnswer], [handleNext], [handlePrevious]). The scoring of
    a submitted answer set happens behind [POST /assessments]; the frontend
    only displays the returned [risk_score], [risk_level],
    [compliance_status] and [recommendations]. *)

From Stdlib Require Import ZArith QArith Lia Lqa.
From stdpp Require Import gmap strings list fin_maps.
From stdpp Require Import pretty.

Local Open Scope Z_scope.

(** ** Results of an assessment *)

Inductive RiskLevel := minimal | limited | high | unacceptable.

Inductive ComplianceStatus :=
  compliant | partially_compliant | non_compliant | not_assessed.

Record AssessmentResult := mkResult {
  risk_score : Q;
  risk_level : RiskLevel;
  compliance_status : ComplianceStatus;
  recommendations : list string;
  created_at : Z
}.

(** ** The question list of [AssessmentComponent]

    Prompts and labels are display text; they are kept here in plain
    letters. *)

Record Option := mkOption { value : string; label : string }.

Record Question := mkQuestion {
  id : string;
  question : string;
  type : string;
  options : list Option
}.

Definition questions : list Question := [
  mkQuestion "company_description"
    "Cual es la actividad principal de su empresa?" "radio"
    [ mkOption "medical_diagnosis" "Diagnostico medico con IA";
      mkOption "treatment_recommendation" "Recomendaciones de tratamiento";
      mkOption "insurance_risk_assessment" "Evaluacion de riesgos de seguros";
      mkOption "automated_underwriting" "Suscripcion automatica";
      mkOption "other" "Otro" ];
  mkQuestion "medical_diagnosis"
    "Su sistema de IA realiza diagnosticos medicos automaticos?" "radio"
    [ mkOption "yes" "Si, diagnosticos completamente automaticos";
      mkOption "partial" "Si, pero con supervision medica";
      mkOption "no" "No, solo proporciona informacion de apoyo" ];
  mkQuestion "automated_decision_making"
    "Su IA toma decisiones automatizadas que afectan significativamente a las personas?"
    "radio"
    [ mkOption "yes" "Si, decisiones completamente automaticas";
      mkOption "partial" "Si, pero con revision humana";
      mkOption "no" "No, solo recomendaciones" ];
  mkQuestion "biometric_identification"
    "Utiliza identificacion biometrica en tiempo real?" "radio"
    [ mkOption "yes" "Si, identificacion biometrica en tiempo real";
      mkOption "partial" "Si, pero no en tiempo real";
      mkOption "no" "No utiliza identificacion biometrica" ];
  mkQuestion "emotion_recognition"
    "Su sistema reconoce o categoriza emociones?" "radio"
    [ mkOption "yes" "Si, reconocimiento de emociones";
      mkOption "partial" "Parcialmente, analisis de sentimientos basico";
      mkOption "no" "No reconoce emociones" ];
  mkQuestion "data_processing"
    "Que tipo de datos personales procesa su IA?" "radio"
    [ mkOption "sensitive" "Datos de salud, biometricos o geneticos";
      mkOption "personal" "Datos personales generales";
      mkOption "anonymous" "Solo datos anonimizados";
      mkOption "none" "No procesa datos personales" ];
  mkQuestion "transparency"
    "Los usuarios estan informados sobre el uso de IA?" "radio"
    [ mkOption "full" "Informacion completa y clara";
      mkOption "partial" "Informacion basica";
      mkOption "minimal" "Informacion minima";
      mkOption "none" "No se informa explicitamente" ];
  mkQuestion "human_oversight"
    "Existe supervision humana en las decisiones de IA?" "radio"
    [ mkOption "continuous" "Supervision humana continua";
      mkOption "periodic" "Revision periodica por humanos";
      mkOption "exception" "Solo en casos excepcionales";
      mkOption "none" "No hay supervision humana" ]
].

(** [questions.length], as the number the handlers compare the cursor with. *)
Definition questionCount : Z := Z.of_nat (length questions).

(** ** JavaScript values the component relies on *)

(** [arr[i]] for a number [i]: [undefined] (here [None]) outside the array,
    never an exception. *)
Definition js_index {A} (arr : list A) (i : Z) : option A :=
  if i <? 0 then None else arr !! Z.to_nat i.

(** Truthiness of [obj[key]] for an object of strings: [undefined] and the
    empty string are falsy. *)
Definition js_truthy (v : option string) : bool :=
  match v with
  | Some x => negb (String.eqb x "")
  | None => false
  end.

(** [x || ''] *)
Definition js_or_empty (v : option string) : string :=
  if js_truthy v then default ""%string v else ""%string.

(** A property read on [undefined] throws; nothing else in the component
    body can. *)
Inductive JsError := TypeError.

Inductive completion (A : Type) :=
  | Normal (a : A)
  | Throw (e : JsError).
Arguments Normal {A} a.
Arguments Throw {A} e.

(** ** Component state

    The four [useState] cells, and the log of the bodies sent with
    [axios.post] to [/assessments]. [responses] holds the own properties
    of the answers object; the component reads it only at question ids,
    none of which names a property every object inherits. *)

Record State := mkState {
  currentStep : Z;
  responses : gmap string string;
  assessmentLoading : bool;
  result : option AssessmentResult;
  posted : list (gmap string string)
}.

Definition initialState : State := mkState 0 ∅ false None [].

(** ** Handlers *)

Definition handleAnswer (s : State) (questionId value : string) : State :=
  mkState (currentStep s) (<[questionId := value]> (responses s))
          (assessmentLoading s) (result s) (posted s).

(** The synchronous part of [submitAssessment]: the loading flag is raised
    and the request leaves with the current answers. *)
Definition submitAssessment (s : State) : State :=
  mkState (currentStep s) (responses s) true (result s)
          (posted s ++ [responses s]).

(** The request settles: [setResult(response.data)] then the [finally]. *)
Definition submitResolved (s : State) (data : AssessmentResult) : State :=
  mkState (currentStep s) (responses s) false (Some data) (posted s).

(** The request fails: the error is logged, then the [finally]. *)
Definition submitRejected (s : State) : State :=
  mkState (currentStep s) (responses s) false (result s) (posted s).

Definition handleNext (s : State) : State :=
  if currentStep s <? questionCount - 1
  then mkState (currentStep s + 1) (responses s)
               (assessmentLoading s) (result s) (posted s)
  else submitAssessment s.

Definition handlePrevious (s : State) : State :=
  if 0 <? currentStep s
  then mkState (currentStep s - 1) (responses s)
               (assessmentLoading s) (result s) (posted s)
  else s.

(** ** Rendering *)

Definition currentQuestion (s : State) : option Question :=
  js_index questions (currentStep s).

Definition progress (s : State) : Q :=
  (inject_Z (currentStep s + 1) / inject_Z questionCount * 100)%Q.

Record Wizard := mkWizard {
  stepLabel : Z * Z;
  progressValue : Q;
  shown : Question;
  radioValue : string;
  previousDisabled : bool;
  nextDisabled : bool;
  nextLabel : string
}.

Inductive View :=
  | ResultView (r : AssessmentResult)
  | LoadingView
  | WizardView (w : Wizard).

(** The body of the component after the handlers: the result card when a
    result is there, the spinner while loading, the wizard card otherwise.
    The wizard card reads [currentQuestion.question] first. *)
Definition AssessmentComponent (s : State) : completion View :=
  match result s with
  | Some r => Normal (ResultView r)
  | None =>
    if assessmentLoading s then Normal LoadingView
    else match currentQuestion s with
         | None => Throw TypeError
         | Some q =>
           Normal (WizardView {|
             stepLabel := (currentStep s + 1, questionCount);
             progressValue := progress s;
             shown := q;
             radioValue := js_or_empty (responses s !! id q);
             previousDisabled := currentStep s =? 0;
             nextDisabled := negb (js_truthy (responses s !! id q));
             nextLabel := if currentStep s =? questionCount - 1
                          then "Finalizar" else "Siguiente" |})
         end
  end.

(** ** What the user can do on the rendered card *)

(** Picking a radio item: [onValueChange] fires with the value of one of
    the items rendered for the current question. *)
Definition selectOption (s : State) (v : string) : State :=
  match AssessmentComponent s with
  | Normal (WizardView w) =>
    if bool_decide (v ∈ value <$> options (shown w))
    then handleAnswer s (id (shown w)) v
    else s
  | _ => s
  end.

(** A click on a disabled button does nothing. *)
Definition clickNext (s : State) : State :=
  match AssessmentComponent s with
  | Normal (WizardView w) => if nextDisabled w then s else handleNext s
  | _ => s
  end.

Definition clickPrevious (s : State) : State :=
  match AssessmentComponent s with
  | Normal (WizardView w) => if previousDisabled w then s else handlePrevious s
  | _ => s
  end.

(** ** Runs *)

(** Direct calls of the handlers, with any arguments. *)
Inductive Call :=
  | CallAnswer (questionId value : string)
  | CallNext
  | CallPrevious
  | PostResolves (data : AssessmentResult)
  | PostRejects.

Definition call (s : State) (c : Call) : State :=
  match c with
  | CallAnswer q v => handleAnswer s q v
  | CallNext => handleNext s
  | CallPrevious => handlePrevious s
  | PostResolves d => submitResolved s d
  | PostRejects => submitRejected s
  end.

Inductive reachable : State → Prop :=
  | reachable_init : reachable initialState
  | reachable_call s c : reachable s → reachable (call s c).

(** What happens through the page: the user picks an item or clicks a
    button of the card shown, a pending request settles, or the user starts
    over from the result card (the page reloads). *)
Inductive Action :=
  | Select (v : string)
  | ClickNext
  | ClickPrevious
  | ServerAnswers (data : AssessmentResult)
  | ServerFails
  | NewAssessment.

Definition act (s : State) (a : Action) : State :=
  match a with
  | Select v => selectOption s v
  | ClickNext => clickNext s
  | ClickPrevious => clickPrevious s
  | ServerAnswers d => if assessmentLoading s then submitResolved s d else s
  | ServerFails => if assessmentLoading s then submitRejected s else s
  | NewAssessment =>
    match AssessmentComponent s with
    | Normal (ResultView _) => initialState
    | _ => s
    end
  end.

Definition session (acts : list Action) : State :=
  foldl act initialState acts.

(** ** Scoring of a submitted answer set

    The scoring runs in the backend behind [POST /assessments]; the
    definitions of this section follow its description. *)

(** Modelled from the spec: the rule record of the backend's rule table
    (the backend is not among the sources). A rule fires when every
    [(questionId, value)] pair it lists is the recorded answer. *)
Record RiskRule := mkRule {
  when : list (string * string);
  scoreDelta : Q;
  recommendation : option string
}.

(** Modelled from the spec: the one error of the backend's scoring. *)
Inductive ScoreError := IncompleteAnswerSetError.

(** Modelled from the spec: an answer set is complete when it has an entry
    for every question id (the backend's check is not among the sources). *)
Definition complete (answers : gmap string string) : bool :=
  forallb (λ q, bool_decide (is_Some (answers !! id q))) questions.

(** Modelled from the spec: whether a rule of the backend's table applies. *)
Definition triggered (answers : gmap string string) (r : RiskRule) : bool :=
  forallb (λ p, bool_decide (answers !! p.1 = Some p.2)) (when r).

(** Modelled from the spec: step 3 of the backend's scoring, a floor at 0
    and a ceiling at 10. *)
Definition clamp (x : Q) : Q :=
  if Qle_bool x 0 then 0%Q
  else if Qle_bool 10 x then 10%Q
  else x.

(** Modelled from the spec: step 4 of the backend's scoring, the bands of
    the risk level. *)
Definition risk_level_of (x : Q) : RiskLevel :=
  if Qle_bool 7.5 x then unacceptable
  else if Qle_bool 5 x then high
  else if Qle_bool 2.5 x then limited
  else minimal.

(** Modelled from the spec: step 5 of the backend's scoring. *)
Definition compliance_of (l : RiskLevel) : ComplianceStatus :=
  match l with
  | minimal => compliant
  | limited => partially_compliant
  | high => partially_compliant
  | unacceptable => non_compliant
  end.

(** Modelled from the spec: step 6 of the backend's scoring keeps the first
    occurrence of each recommendation, in the order of the rule table. *)
Fixpoint dedup (seen l : list string) : list string :=
  match l with
  | [] => []
  | x :: l' =>
    if bool_decide (x ∈ seen) then dedup seen l' else x :: dedup (x :: seen) l'
  end.

Section Scoring.

Variable rules : list RiskRule.
Variable now : Z.

(** Modelled from the spec: steps 1 and 2 of the backend's scoring, the
    sum of the contributions of the rules that fire. *)
Definition total (answers : gmap string string) : Q :=
  foldr Qplus 0%Q (scoreDelta <$> filter (λ r, triggered answers r) rules).

(** Modelled from the spec: the backend's [score], steps 1 to 7. *)
Definition score (answers : gmap string string)
  : ScoreError + AssessmentResult :=
  if complete answers then
    let s := clamp (total answers) in
    let l := risk_level_of s in
    inr {| risk_score := s;
           risk_level := l;
           compliance_status := compliance_of l;
           recommendations :=
             dedup [] (omap recommendation
                         (filter (λ r, triggered answers r) rules));
           created_at := now |}
  else inl IncompleteAnswerSetError.

End Scoring.

(** ** Example data

    A small rule table and two answer sets, used to run the definitions. *)

Definition exampleRules : list RiskRule := [
  mkRule [("medical_diagnosis", "yes")] 3 (Some "Clinical validation");
  mkRule [("biometric_identification", "yes")] 2.5 (Some "Biometric review");
  mkRule [("emotion_recognition", "yes")] 2.5 (Some "Clinical validation");
  mkRule [("data_processing", "sensitive")] 2.5 (Some "DPIA");
  mkRule [("human_oversight", "none")] 4 None ]%Q.

Definition lowestRiskAnswers : gmap string string :=
  list_to_map [
    ("company_description", "other"); ("medical_diagnosis", "no");
    ("automated_decision_making", "no"); ("biometric_identification", "no");
    ("emotion_recognition", "no"); ("data_processing", "none");
    ("transparency", "full"); ("human_oversight", "continuous") ]%string.

Definition highestRiskAnswers : gmap string string :=
  list_to_map [
    ("company_description", "medical_diagnosis"); ("medical_diagnosis", "yes");
    ("automated_decision_making", "yes"); ("biometric_identification", "yes");
    ("emotion_recognition", "yes"); ("data_processing", "sensitive");
    ("transparency", "none"); ("human_oversight", "none") ]%string.

(** A session that answers every question and stops on the last card,
    before the final click. *)
Definition lastCardSession : list Action := [
  Select "other"; ClickNext; Select "no"; ClickNext; Select "no"; ClickNext;
  Select "no"; ClickNext; Select "no"; ClickNext; Select "none"; ClickNext;
  Select "full"; ClickNext; Select "continuous" ]%string.

(** ** Predicates on states *)

(** The Next button is on the page and can be clicked: the wizard card is
    shown and [responses[currentQuestion.id]] is truthy. *)
Definition nextEnabled (s : State) : Prop :=
  result s = None ∧ assessmentLoading s = false ∧
  ∃ q v, currentQuestion s = Some q ∧ responses s !! id q = Some v ∧
         v ≠ ""%string.

(** Every question before the cursor has a truthy recorded answer. *)
Definition answeredBefore (s : State) : Prop :=
  ∀ i q, 0 ≤ i < currentStep s → js_index questions i = Some q →
         js_truthy (responses s !! id q) = true.

(** A state with the cursor one past the last question, while a request
    is pending. *)
Definition pastEndState : State := mkState questionCount ∅ true None [].

(** Every recorded answer is one of the options of the question it is
    recorded for. *)
Definition validAnswers (s : State) : Prop :=
  ∀ k v, responses s !! k = Some v →
         ∃ q, q ∈ questions ∧ id q = k ∧ v ∈ value <$> options q.

(** A request body that answers every question with one of its options and
    holds nothing else. *)
Definition fullBody (body : gmap string string) : Prop :=
  (∀ q, q ∈ questions →
        ∃ v, body !! id q = Some v ∧ v ∈ value <$> options q) ∧
  (∀ k, is_Some (body !! k) → k ∈ id <$> questions).

(** The user goes through the cards in order, picks one value on each and
    clicks Next. *)
Definition answerAll (vs : list string) : list Action :=
  vs ≫= λ v, [Select v; ClickNext].

(** The values the first option of every question carries. *)
Definition firstOptions : list string :=
  (λ q, default ""%string (value <$> head (options q))) <$> questions.

(** A request is pending or answered only on the last card, and its body
    is then the answer set the component still holds. *)
Definition requestMatches (s : State) : Prop :=
  (assessmentLoading s = true → result s = None) ∧
  (assessmentLoading s = true ∨ result s ≠ None →
     currentStep s = questionCount - 1 ∧
     last (posted s) = Some (responses s)).

(** ** The authentication provider

    [AuthProvider] keeps the user, the token and a loading flag, mirrors
    the session in [localStorage] and in the [Authorization] header of
    axios, and restores it in an effect that runs after the first render
    and after every render that sees another token. *)

(** The platform's JSON, as far as the provider uses it: [JSON_parse] is
    [None] where [JSON.parse] throws, [JSON_stringify u] is the string that
    [localStorage.setItem] stores for [JSON.stringify(u)], and [hasId v] is
    the truthiness of [v && v.id]. *)
Class Json := {
  JsonValue : Type;
  JSON_parse : string → option JsonValue;
  JSON_stringify : JsonValue → string;
  hasId : JsonValue → bool
}.

Record AuthState `{Json} := mkAuth {
  user : option JsonValue;
  token : option string;
  authLoading : bool;
  localStorage : gmap string string;
  authorization : option string
}.
Arguments mkAuth {_} _ _ _ _ _.

(** [`Bearer ${token}`] *)
Definition bearer (t : string) : string := "Bearer " +:+ t.

(** [removeItem('token'); removeItem('user'); setToken(null)], the two
    places of the effect that give the stored session up. *)
Definition dropStored `{Json} (s : AuthState) : AuthState :=
  mkAuth (user s) None (authLoading s)
         (delete "user" (delete "token" (localStorage s)))
         (authorization s).

(** The body of the effect. *)
Definition authEffect `{Json} (s : AuthState) : AuthState :=
  let s1 :=
    if js_truthy (token s) then
      let s' := mkAuth (user s) (token s) (authLoading s) (localStorage s)
                       (Some (bearer (default ""%string (token s)))) in
      match localStorage s !! "user" with
      | Some userData =>
        if negb (String.eqb userData "")
           && negb (String.eqb userData "undefined")
           && negb (String.eqb userData "null")
        then match JSON_parse userData with
             | Some parsedUser =>
               if hasId parsedUser
               then mkAuth (Some parsedUser) (token s') (authLoading s')
                           (localStorage s') (authorization s')
               else s'
             | None => dropStored s'
             end
        else dropStored s'
      | None => dropStored s'
      end
    else s in
  mkAuth (user s1) (token s1) false (localStorage s1) (authorization s1).

Definition login `{Json} (s : AuthState) (userData : JsonValue)
    (authToken : string) : AuthState :=
  mkAuth (Some userData) (Some authToken) (authLoading s)
         (<["user" := JSON_stringify userData]>
            (<["token" := authToken]> (localStorage s)))
         (Some (bearer authToken)).

Definition logout `{Json} (s : AuthState) : AuthState :=
  mkAuth None None (authLoading s)
         (delete "user" (delete "token" (localStorage s)))
         None.

(** The renders that follow a change: the effect runs when the token is
    not the one the render before had seen, and once more when the effect
    itself has changed the token. *)
Definition settle `{Json} (before : option string) (s : AuthState)
    : AuthState :=
  if decide (token s = before) then s
  else let s1 := authEffect s in
       if decide (token s1 = token s) then s1 else authEffect s1.

(** A page load: the token is read from the storage, no header is set, the
    loading flag is up, and the effect runs after the first render. *)
Definition mount `{Json} (storage : gmap string string) : AuthState :=
  let s0 := mkAuth None (storage !! "token") true storage None in
  let s1 := authEffect s0 in
  if decide (token s1 = token s0) then s1 else authEffect s1.

(** A toy JSON for examples: a value is a string, well formed when it
    starts with a brace, and has an id unless it is the empty object. *)
Definition toyJson : Json := {|
  JsonValue := string;
  JSON_parse := λ s, if String.prefix "{" s then Some s else None;
  JSON_stringify := λ v, v;
  hasId := λ v, negb (String.eqb v "{}")
|}.

(** The provider of a visitor who has never logged in. *)
Definition freshAuth `{Json} : AuthState := mkAuth None None false ∅ None.

(** Two storages left behind by an earlier visit: one whose user entry is
    the text null, one whose user entry is an object without id. *)
Definition storageWithNull : gmap string string :=
  <["user" := "null"]> (<["token" := "abc"]> ∅).


(** ** The countdown of the timeline *)






(** * Properties of the wizard *)

Lemma questionCount_eq : questionCount = 8.
Proof. reflexivity. Qed.

Lemma js_index_is_Some {A} (arr : list A) (i : Z) :
  is_Some (js_index arr i) ↔ 0 ≤ i < Z.of_nat (length arr).
Proof.
  unfold js_index. destruct (Z.ltb_spec i 0) as [Hneg | Hpos].
  - split; [intros [x Hx]; discriminate | lia].
  - rewrite lookup_lt_is_Some. lia.
Qed.

Lemma js_index_None {A} (arr : list A) (i : Z) :
  js_index arr i = None ↔ i < 0 ∨ Z.of_nat (length arr) ≤ i.
Proof.
  rewrite eq_None_not_Some, js_index_is_Some. lia.
Qed.

Lemma currentQuestion_is_Some (s : State) :
  is_Some (currentQuestion s) ↔ 0 ≤ currentStep s < questionCount.
Proof. apply js_index_is_Some. Qed.

(** Each handler, field by field. *)

Lemma handleNext_step (s : State) :
  currentStep (handleNext s) =
    if currentStep s <? questionCount - 1 then currentStep s + 1
    else currentStep s.
Proof. unfold handleNext. by destruct (_ <? _). Qed.

Lemma handleNext_responses (s : State) :
  responses (handleNext s) = responses s.
Proof. unfold handleNext. by destruct (_ <? _). Qed.

Lemma handlePrevious_step (s : State) :
  currentStep (handlePrevious s) =
    if 0 <? currentStep s then currentStep s - 1 else currentStep s.
Proof. unfold handlePrevious. by destruct (_ <? _). Qed.

Lemma handlePrevious_responses (s : State) :
  responses (handlePrevious s) = responses s.
Proof. unfold handlePrevious. by destruct (_ <? _). Qed.

Lemma call_step_bounds (s : State) (c : Call) :
  0 ≤ currentStep s < questionCount →
  0 ≤ currentStep (call s c) < questionCount.
Proof.
  intros Hs. destruct c; simpl; try done.
  - rewrite handleNext_step. destruct (Z.ltb_spec (currentStep s) (questionCount - 1)); lia.
  - rewrite handlePrevious_step. destruct (Z.ltb_spec 0 (currentStep s)); lia.
Qed.

Lemma reachable_bounds (s : State) :
  reachable s → 0 ≤ currentStep s < questionCount.
Proof.
  induction 1 as [| s c _ IH].
  - rewrite questionCount_eq. simpl. lia.
  - by apply call_step_bounds.
Qed.

(** Whatever happens through the page is a sequence of handler calls. *)

Lemma selectOption_cases (s : State) (v : string) :
  selectOption s v = s ∨
  ∃ q, result s = None ∧ assessmentLoading s = false ∧
       currentQuestion s = Some q ∧ v ∈ value <$> options q ∧
       selectOption s v = handleAnswer s (id q) v.
Proof.
  unfold selectOption, AssessmentComponent.
  destruct (result s) eqn:Hr; [by left |].
  destruct (assessmentLoading s) eqn:Hl; [by left |].
  destruct (currentQuestion s) as [q |] eqn:Hq; [| by left]. simpl.
  case_bool_decide as Hv; [| by left].
  right. by exists q.
Qed.

Lemma clickNext_cases (s : State) :
  clickNext s = s ∨ clickNext s = handleNext s.
Proof.
  unfold clickNext. destruct (AssessmentComponent s) as [[| | w] |]; auto.
  destruct (nextDisabled w); auto.
Qed.

Lemma clickPrevious_cases (s : State) :
  clickPrevious s = s ∨ clickPrevious s = handlePrevious s.
Proof.
  unfold clickPrevious. destruct (AssessmentComponent s) as [[| | w] |]; auto.
  destruct (previousDisabled w); auto.
Qed.

Lemma act_reachable (s : State) (a : Action) :
  reachable s → reachable (act s a).
Proof.
  intros Hs. destruct a as [v | | | d | |]; simpl.
  - destruct (selectOption_cases s v) as [-> | (q & _ & _ & _ & _ & ->)]; [done |].
    apply (reachable_call s (CallAnswer (id q) v) Hs).
  - destruct (clickNext_cases s) as [-> | ->]; [done |].
    apply (reachable_call s CallNext Hs).
  - destruct (clickPrevious_cases s) as [-> | ->]; [done |].
    apply (reachable_call s CallPrevious Hs).
  - destruct (assessmentLoading s); [| done].
    apply (reachable_call s (PostResolves d) Hs).
  - destruct (assessmentLoading s); [| done].
    apply (reachable_call s PostRejects Hs).
  - destruct (AssessmentComponent s) as [[| |] |]; try done. constructor.
Qed.

Lemma foldl_act_reachable (acts : list Action) (s : State) :
  reachable s → reachable (foldl act s acts).
Proof.
  revert s. induction acts as [| a acts IH]; intros s Hs; simpl; [done |].
  apply IH. by apply act_reachable.
Qed.

Lemma session_reachable (acts : list Action) : reachable (session acts).
Proof. apply foldl_act_reachable. constructor. Qed.

(** C8: every state reached from the initial one by any sequence of calls
    of [handleAnswer], [handleNext] and [handlePrevious] (and of settled
    requests) has its step index between 0 and the number of questions. *)
Theorem wizard_step_in_range (s : State) :
  reachable s → 0 ≤ currentStep s ≤ questionCount.
Proof.
  intros Hs. pose proof (reachable_bounds s Hs). lia.
Qed.

Lemma wizard_step_in_range_witness :
  reachable (session lastCardSession) ∧
  0 ≤ currentStep (session lastCardSession) ≤ questionCount.
Proof.
  split.
  - apply session_reachable.
  - apply (wizard_step_in_range (session lastCardSession)).
    apply session_reachable.
Defined.

(** C9: [handleAnswer] changes the entry of its question id and nothing
    else: every other recorded answer keeps its value, and the step index
    (as the loading flag, the result and the requests sent) is unchanged. *)
Theorem handleAnswer_frame (s : State) (questionId v : string) :
  responses (handleAnswer s questionId v) !! questionId = Some v ∧
  (∀ other : string, other ≠ questionId →
     responses (handleAnswer s questionId v) !! other = responses s !! other) ∧
  currentStep (handleAnswer s questionId v) = currentStep s ∧
  assessmentLoading (handleAnswer s questionId v) = assessmentLoading s ∧
  result (handleAnswer s questionId v) = result s ∧
  posted (handleAnswer s questionId v) = posted s.
Proof.
  unfold handleAnswer; simpl. split_and!; try done.
  - apply lookup_insert_eq.
  - intros other Hne. by apply lookup_insert_ne.
Qed.

Lemma handleAnswer_frame_witness :
  responses (handleAnswer (session lastCardSession) "transparency" "none")
    !! "human_oversight"%string = Some "continuous"%string.
Proof.
  destruct (handleAnswer_frame (session lastCardSession)
              "transparency" "none") as (_ & Hother & _).
  rewrite Hother; [vm_compute; reflexivity | discriminate].
Defined.

(** C10: in every reachable state the step index is strictly below
    [questions.length], so [questions[currentStep]] is a question and the
    component body never throws; on the last step [handleNext] sends the
    answers and leaves the index where it is. *)
Theorem current_question_defined (s : State) :
  reachable s →
  currentStep s < questionCount ∧
  is_Some (currentQuestion s) ∧
  (∃ v, AssessmentComponent s = Normal v) ∧
  (currentStep s = questionCount - 1 →
     currentStep (handleNext s) = currentStep s ∧
     posted (handleNext s) = posted s ++ [responses s]).
Proof.
  intros Hs. pose proof (reachable_bounds s Hs) as Hb.
  assert (is_Some (currentQuestion s)) as Hq
    by by apply currentQuestion_is_Some.
  split_and!; [lia | done | |].
  - unfold AssessmentComponent. destruct Hq as [q ->].
    destruct (result s); [eauto |]. destruct (assessmentLoading s); eauto.
  - intros Hlast. unfold handleNext.
    destruct (Z.ltb_spec (currentStep s) (questionCount - 1)); [lia | done].
Qed.

Lemma current_question_defined_witness :
  reachable (act (session lastCardSession) ClickNext) ∧
  currentStep (act (session lastCardSession) ClickNext) < questionCount ∧
  is_Some (currentQuestion (act (session lastCardSession) ClickNext)).
Proof.
  assert (reachable (act (session lastCardSession) ClickNext)) as Hr
    by apply act_reachable, session_reachable.
  split; [exact Hr |].
  destruct (current_question_defined _ Hr) as (Hlt & Hq & _).
  split; [exact Hlt | exact Hq].
Defined.

(** ** The gate of the Next button *)

Lemma js_truthy_true (o : option string) :
  js_truthy o = true ↔ ∃ v, o = Some v ∧ v ≠ ""%string.
Proof.
  destruct o as [x |]; simpl.
  - rewrite negb_true_iff, String.eqb_neq. split.
    + intros Hx. by exists x.
    + by intros (v & [= ->] & Hv).
  - split; [done | by intros (v & Hv & _)].
Qed.

Lemma nextEnabled_view (s : State) :
  nextEnabled s ↔
  ∃ w, AssessmentComponent s = Normal (WizardView w) ∧ nextDisabled w = false.
Proof.
  unfold nextEnabled, AssessmentComponent. split.
  - intros (-> & -> & q & v & -> & Hv & Hne). eexists; split; [done |].
    simpl. rewrite negb_false_iff. apply js_truthy_true. eauto.
  - intros (w & Hw & Hdis). destruct (result s); [done |].
    destruct (assessmentLoading s); [done |].
    destruct (currentQuestion s) as [q |]; [| done].
    injection Hw as <-. simpl in Hdis.
    rewrite negb_false_iff, js_truthy_true in Hdis.
    destruct Hdis as (v & Hv & Hne). split_and!; try done. eauto.
Qed.

Lemma clickNext_enabled (s : State) :
  nextEnabled s → clickNext s = handleNext s.
Proof.
  rewrite nextEnabled_view. intros (w & Hw & Hdis).
  unfold clickNext. by rewrite Hw, Hdis.
Qed.

Lemma clickNext_disabled (s : State) :
  ¬ nextEnabled s → clickNext s = s.
Proof.
  rewrite nextEnabled_view. intros Hno. unfold clickNext.
  destruct (AssessmentComponent s) as [[| | w] |] eqn:Hv; try done.
  destruct (nextDisabled w) eqn:Hdis; [done |].
  destruct Hno. eauto.
Qed.

Lemma nextEnabled_dec (s : State) : nextEnabled s ∨ ¬ nextEnabled s.
Proof.
  rewrite nextEnabled_view.
  destruct (AssessmentComponent s) as [[| | w] |] eqn:Hv;
    try (right; by intros (w' & Hw' & _)).
  destruct (nextDisabled w) eqn:Hdis.
  - right. intros (w' & [= <-] & Hw'). congruence.
  - left. eauto.
Qed.

(** C1, as amended: a click on Next moves the cursor one step forward
    exactly when the button is enabled (the wizard card is shown and a
    non-empty answer is recorded for its question) and the step is not the
    last one; on the last step the enabled button sends the answers and the
    cursor stays; when the button is not enabled the click changes
    nothing, and no error is raised. *)
Theorem next_button_gate (s : State) :
  (currentStep (clickNext s) = currentStep s + 1 ↔
     nextEnabled s ∧ currentStep s < questionCount - 1) ∧
  (nextEnabled s → currentStep s = questionCount - 1 →
     clickNext s = submitAssessment s) ∧
  (¬ nextEnabled s → clickNext s = s).
Proof.
  split_and!.
  - destruct (nextEnabled_dec s) as [Hen | Hno].
    + rewrite (clickNext_enabled s Hen), handleNext_step.
      destruct (Z.ltb_spec (currentStep s) (questionCount - 1)); split;
        try tauto; lia.
    + rewrite (clickNext_disabled s Hno). split; [lia | tauto].
  - intros Hen Hlast. rewrite (clickNext_enabled s Hen). unfold handleNext.
    destruct (Z.ltb_spec (currentStep s) (questionCount - 1)); [lia | done].
  - apply clickNext_disabled.
Qed.

Lemma next_button_gate_witness :
  nextEnabled (session lastCardSession) ∧
  currentStep (session lastCardSession) = questionCount - 1 ∧
  clickNext (session lastCardSession) = submitAssessment (session lastCardSession).
Proof.
  assert (nextEnabled (session lastCardSession)) as Hen.
  { split; [reflexivity |]. split; [reflexivity |].
    exists (mkQuestion "human_oversight"
              "Existe supervision humana en las decisiones de IA?" "radio"
              [ mkOption "continuous" "Supervision humana continua";
                mkOption "periodic" "Revision periodica por humanos";
                mkOption "exception" "Solo en casos excepcionales";
                mkOption "none" "No hay supervision humana" ]),
           "continuous"%string.
    split; [vm_compute; reflexivity |].
    split; [vm_compute; reflexivity | discriminate]. }
  assert (currentStep (session lastCardSession) = questionCount - 1) as Hlast
    by (vm_compute; reflexivity).
  split; [exact Hen |]. split; [exact Hlast |].
  exact (proj1 (proj2 (next_button_gate (session lastCardSession))) Hen Hlast).
Defined.

(** C1 as stated fails on the last card: the answer of the current
    question is recorded, yet the click does not increment the cursor. *)
Lemma advance_last_step_counterexample :
  ¬ (∀ (s : State) (q : Question), currentQuestion s = Some q →
       (currentStep (clickNext s) = currentStep s + 1 ↔
        is_Some (responses s !! id q))).
Proof.
  intros Hclaim.
  assert (∃ q, currentQuestion (session lastCardSession) = Some q ∧
               is_Some (responses (session lastCardSession) !! id q))
    as (q & Hq & Hans).
  { eexists. split; [vm_compute; reflexivity |].
    exists "continuous"%string. vm_compute. reflexivity. }
  apply (Hclaim _ _ Hq) in Hans. vm_compute in Hans. discriminate.
Qed.

(** ** Recording an answer *)

(** C5, as amended: [handleAnswer] checks nothing and never fails: for any
    question id and any value it returns the state with that value recorded
    under that id. Only the page restricts what is recorded: picking a
    radio item either changes nothing or records, for the question shown,
    one of that question's option values. *)
Theorem handleAnswer_unchecked (s : State) (questionId v : string) :
  responses (handleAnswer s questionId v) !! questionId = Some v ∧
  (selectOption s v = s ∨
   ∃ q, result s = None ∧ assessmentLoading s = false ∧
        currentQuestion s = Some q ∧ v ∈ value <$> options q ∧
        selectOption s v = handleAnswer s (id q) v).
Proof.
  split.
  - apply lookup_insert_eq.
  - apply selectOption_cases.
Qed.

(** C5 as stated fails: on the first card, a value that is no option of
    any question is recorded under the id of the last question. *)
Lemma selectAnswer_counterexample :
  ¬ (∀ (s : State) (questionId v : string),
       responses (handleAnswer s questionId v) !! questionId = Some v →
       ∃ q, currentQuestion s = Some q ∧ id q = questionId ∧
            v ∈ value <$> options q).
Proof.
  intros Hclaim.
  destruct (Hclaim initialState "human_oversight"%string "bogus"%string)
    as (q & Hq & Hid & _).
  - apply lookup_insert_eq.
  - vm_compute in Hq. injection Hq as <-. discriminate Hid.
Qed.

(** ** The cursor past the last question *)

(** C6, as amended: with the cursor equal to the number of questions,
    [questions[currentStep]] is [undefined] and reading it raises nothing;
    the component body returns the result card or the spinner when one of
    them is due, and throws a [TypeError] only where the wizard card reads
    a property of the missing question. No reachable state has this
    cursor. *)
Theorem currentQuestion_past_end (s : State) :
  currentStep s = questionCount →
  currentQuestion s = None ∧
  AssessmentComponent s =
    match result s with
    | Some r => Normal (ResultView r)
    | None => if assessmentLoading s then Normal LoadingView
              else Throw TypeError
    end ∧
  ¬ reachable s.
Proof.
  intros Hend.
  assert (currentQuestion s = None) as Hq.
  { apply js_index_None. right. fold questionCount. lia. }
  split_and!; [done | |].
  - unfold AssessmentComponent. by rewrite Hq.
  - intros Hs. pose proof (reachable_bounds s Hs). lia.
Qed.

Lemma currentQuestion_past_end_witness :
  currentStep pastEndState = questionCount ∧
  currentQuestion pastEndState = None.
Proof.
  split; [reflexivity |].
  exact (proj1 (currentQuestion_past_end pastEndState eq_refl)).
Defined.

(** C6 as stated fails: with the cursor equal to the number of questions
    the lookup gives [undefined] and the component body, which evaluates
    it, completes and shows the spinner. *)
Lemma currentQuestion_counterexample :
  currentStep pastEndState = questionCount ∧
  currentQuestion pastEndState = None ∧
  AssessmentComponent pastEndState = Normal LoadingView.
Proof. by vm_compute. Qed.

(** ** Going back *)

Lemma option_values_nonempty :
  Forall (λ q, Forall (λ o, value o ≠ ""%string) (options q)) questions.
Proof. apply (bool_decide_unpack _). vm_compute. exact I. Qed.

Lemma js_index_elem_of {A} (arr : list A) (i : Z) (x : A) :
  js_index arr i = Some x → x ∈ arr.
Proof.
  unfold js_index. destruct (i <? 0); [done |].
  intros Hx. apply list_elem_of_lookup. eauto.
Qed.

Lemma shown_option_nonempty (s : State) (q : Question) (v : string) :
  currentQuestion s = Some q → v ∈ value <$> options q → v ≠ ""%string.
Proof.
  intros Hq Hv. apply js_index_elem_of in Hq.
  pose proof option_values_nonempty as Hall.
  rewrite Forall_forall in Hall. specialize (Hall q Hq).
  rewrite Forall_forall in Hall.
  apply list_elem_of_fmap in Hv as (o & -> & Ho). by apply Hall.
Qed.

Lemma clickNext_cases_enabled (s : State) :
  clickNext s = s ∨ (nextEnabled s ∧ clickNext s = handleNext s).
Proof.
  destruct (nextEnabled_dec s) as [Hen | Hno].
  - right. split; [done | by apply clickNext_enabled].
  - left. by apply clickNext_disabled.
Qed.

Lemma answeredBefore_act (s : State) (a : Action) :
  answeredBefore s → answeredBefore (act s a).
Proof.
  intros Hs. destruct a as [v | | | d | |]; simpl.
  - destruct (selectOption_cases s v)
      as [-> | (q & _ & _ & Hq & Hv & ->)]; [done |].
    intros i qi Hi Hqi. simpl in *.
    destruct (decide (id q = id qi)) as [Heq | Hne].
    + rewrite Heq, lookup_insert_eq. apply js_truthy_true.
      exists v. split; [done |]. by eapply shown_option_nonempty.
    + rewrite lookup_insert_ne by done. by eapply Hs.
  - destruct (clickNext_cases_enabled s) as [-> | [Hen ->]]; [done |].
    intros i qi Hi Hqi.
    rewrite handleNext_responses. rewrite handleNext_step in Hi.
    destruct (Z.ltb_spec (currentStep s) (questionCount - 1));
      [| by eapply Hs].
    destruct (decide (i = currentStep s)) as [-> | Hne];
      [| eapply Hs; [| done]; lia].
    destruct Hen as (_ & _ & q & v & Hq & Hv & Hne).
    unfold currentQuestion in Hq. rewrite Hqi in Hq. injection Hq as <-.
    apply js_truthy_true. eauto.
  - destruct (clickPrevious_cases s) as [-> | ->]; [done |].
    intros i qi Hi Hqi.
    rewrite handlePrevious_responses. rewrite handlePrevious_step in Hi.
    eapply Hs; [| done]. destruct (Z.ltb_spec 0 (currentStep s)); lia.
  - by destruct (assessmentLoading s).
  - by destruct (assessmentLoading s).
  - destruct (AssessmentComponent s) as [[| |] |]; try done.
    intros i qi Hi. simpl in Hi. lia.
Qed.

Lemma answeredBefore_foldl (acts : list Action) (s : State) :
  answeredBefore s → answeredBefore (foldl act s acts).
Proof.
  revert s. induction acts as [| a acts IH]; intros s Hs; simpl; [done |].
  apply IH. by apply answeredBefore_act.
Qed.

Lemma answeredBefore_session (acts : list Action) :
  answeredBefore (session acts).
Proof.
  apply answeredBefore_foldl. intros i q Hi. simpl in Hi. lia.
Qed.

Lemma wizard_view_inv (s : State) (w : Wizard) :
  AssessmentComponent s = Normal (WizardView w) →
  result s = None ∧ assessmentLoading s = false ∧
  currentQuestion s = Some (shown w) ∧
  radioValue w = js_or_empty (responses s !! id (shown w)) ∧
  previousDisabled w = (currentStep s =? 0) ∧
  nextDisabled w = negb (js_truthy (responses s !! id (shown w))).
Proof.
  unfold AssessmentComponent. destruct (result s); [done |].
  destruct (assessmentLoading s); [done |].
  destruct (currentQuestion s) as [q |]; [| done].
  by intros [= <-].
Qed.

Lemma wizard_view_intro (s : State) (q : Question) :
  result s = None → assessmentLoading s = false →
  currentQuestion s = Some q →
  ∃ w, AssessmentComponent s = Normal (WizardView w) ∧ shown w = q.
Proof.
  intros Hr Hl Hq. unfold AssessmentComponent. rewrite Hr, Hl, Hq. eauto.
Qed.

Lemma handleNext_handlePrevious (s : State) :
  0 < currentStep s < questionCount → handleNext (handlePrevious s) = s.
Proof.
  intros Hs. unfold handlePrevious.
  destruct (Z.ltb_spec 0 (currentStep s)); [| lia].
  unfold handleNext. simpl.
  destruct (Z.ltb_spec (currentStep s - 1) (questionCount - 1)); [| lia].
  destruct s as [step resp load res sent]. simpl. f_equal. lia.
Qed.

(** C7: [handlePrevious] moves the cursor one step back, never below 0,
    and leaves the recorded answers as they are, and so does going back
    and forth; from a card after the first, going back shows the earlier
    card with its recorded answer selected and the Next button enabled, and
    clicking Next returns to the very state the user left. *)
Theorem retreat_keeps_answers :
  (∀ s : State, 0 ≤ currentStep s →
     currentStep (handlePrevious s) = Z.max 0 (currentStep s - 1) ∧
     responses (handlePrevious s) = responses s ∧
     responses (handleNext (handlePrevious s)) = responses s ∧
     responses (clickNext (clickPrevious s)) = responses s) ∧
  (∀ (acts : list Action) (w : Wizard),
     AssessmentComponent (session acts) = Normal (WizardView w) →
     0 < currentStep (session acts) →
     ∃ (w' : Wizard) (v : string),
       AssessmentComponent (clickPrevious (session acts))
         = Normal (WizardView w') ∧
       currentStep (clickPrevious (session acts))
         = currentStep (session acts) - 1 ∧
       responses (session acts) !! id (shown w') = Some v ∧
       v ≠ ""%string ∧
       radioValue w' = v ∧
       nextDisabled w' = false ∧
       clickNext (clickPrevious (session acts)) = session acts).
Proof.
  split.
  - intros s Hs. split_and!.
    + rewrite handlePrevious_step.
      destruct (Z.ltb_spec 0 (currentStep s)); lia.
    + apply handlePrevious_responses.
    + by rewrite handleNext_responses, handlePrevious_responses.
    + destruct (clickPrevious_cases s) as [-> | ->];
        destruct (clickNext_cases s) as [Hn | Hn];
        destruct (clickNext_cases (handlePrevious s)) as [Hp | Hp];
        rewrite ?Hn, ?Hp, ?handleNext_responses, ?handlePrevious_responses;
        done.
  - intros acts w Hw Hpos.
    pose proof (reachable_bounds _ (session_reachable acts)) as Hb.
    pose proof (answeredBefore_session acts) as Hans.
    set (s := session acts) in *.
    destruct (wizard_view_inv s w Hw) as (Hr & Hl & _ & _ & Hprev & _).
    assert (clickPrevious s = handlePrevious s) as Hclick.
    { unfold clickPrevious. rewrite Hw, Hprev.
      by destruct (Z.eqb_spec (currentStep s) 0); [lia |]. }
    assert (currentStep (handlePrevious s) = currentStep s - 1) as Hstep.
    { rewrite handlePrevious_step.
      by destruct (Z.ltb_spec 0 (currentStep s)); [| lia]. }
    assert (is_Some (currentQuestion (handlePrevious s))) as [q Hq].
    { apply currentQuestion_is_Some. lia. }
    assert (js_truthy (responses s !! id q) = true) as Htruthy.
    { apply (Hans (currentStep s - 1) q); [lia |].
      unfold currentQuestion in Hq. by rewrite Hstep in Hq. }
    destruct (wizard_view_intro (handlePrevious s) q) as (w' & Hw' & Hshown).
    { unfold handlePrevious. by destruct (_ <? _). }
    { unfold handlePrevious. by destruct (_ <? _). }
    { done. }
    destruct (wizard_view_inv _ w' Hw') as (_ & _ & _ & Hradio & _ & Hnext).
    rewrite handlePrevious_responses, Hshown in Hradio, Hnext.
    pose proof Htruthy as (v & Hv & Hne)%js_truthy_true.
    exists w', v. rewrite Hclick, Hshown. split_and!; try done.
    + rewrite Hradio. unfold js_or_empty. by rewrite Htruthy, Hv.
    + by rewrite Hnext, Htruthy.
    + unfold clickNext. rewrite Hw', Hnext, Htruthy. simpl.
      apply handleNext_handlePrevious. lia.
Qed.

Lemma retreat_keeps_answers_witness :
  0 ≤ currentStep (session lastCardSession) ∧
  currentStep (handlePrevious (session lastCardSession))
    = Z.max 0 (currentStep (session lastCardSession) - 1) ∧
  clickNext (clickPrevious (session lastCardSession))
    = session lastCardSession.
Proof.
  assert (0 ≤ currentStep (session lastCardSession)) as Hpos
    by (vm_compute; discriminate).
  split; [exact Hpos |]. split.
  - exact (proj1 (proj1 retreat_keeps_answers _ Hpos)).
  - destruct (proj2 retreat_keeps_answers lastCardSession
                (match AssessmentComponent (session lastCardSession) with
                 | Normal (WizardView w) => w
                 | _ => mkWizard (0, 0) 0 (mkQuestion "" "" "" []) "" true true ""
                 end))
      as (w' & v & _ & _ & _ & _ & _ & _ & Hback).
    + vm_compute. reflexivity.
    + vm_compute. reflexivity.
    + exact Hback.
Defined.

(** * Properties of the scoring *)

Lemma Qle_bool_false (x y : Q) : Qle_bool x y = false → (y < x)%Q.
Proof.
  intros Hxy. apply Qnot_le_lt. rewrite <- Qle_bool_iff. congruence.
Qed.

Lemma clamp_cases (x : Q) :
  ((x <= 0)%Q ∧ clamp x = 0%Q) ∨
  ((0 < x)%Q ∧ (10 <= x)%Q ∧ clamp x = 10%Q) ∨
  ((0 < x)%Q ∧ (x < 10)%Q ∧ clamp x = x).
Proof.
  unfold clamp. destruct (Qle_bool x 0) eqn:Hlow.
  - left. by rewrite <- Qle_bool_iff.
  - apply Qle_bool_false in Hlow. right.
    destruct (Qle_bool 10 x) eqn:Hup.
    + left. by rewrite <- Qle_bool_iff.
    + right. by apply Qle_bool_false in Hup.
Qed.

Lemma clamp_range (x : Q) : (0 <= clamp x)%Q ∧ (clamp x <= 10)%Q.
Proof.
  destruct (clamp_cases x) as [[_ ->] | [(_ & _ & ->) | (Hlo & Hhi & ->)]];
    lra.
Qed.

Lemma risk_level_of_cases (x : Q) :
  ((x < 2.5)%Q ∧ risk_level_of x = minimal) ∨
  ((2.5 <= x)%Q ∧ (x < 5)%Q ∧ risk_level_of x = limited) ∨
  ((5 <= x)%Q ∧ (x < 7.5)%Q ∧ risk_level_of x = high) ∨
  ((7.5 <= x)%Q ∧ risk_level_of x = unacceptable).
Proof.
  unfold risk_level_of.
  destruct (Qle_bool 7.5 x) eqn:H3;
    [rewrite Qle_bool_iff in H3; tauto | apply Qle_bool_false in H3].
  destruct (Qle_bool 5 x) eqn:H2;
    [rewrite Qle_bool_iff in H2; tauto | apply Qle_bool_false in H2].
  destruct (Qle_bool 2.5 x) eqn:H1;
    [rewrite Qle_bool_iff in H1; tauto | apply Qle_bool_false in H1].
  tauto.
Qed.

Lemma score_complete (rules : list RiskRule) (now : Z)
    (answers : gmap string string) :
  complete answers = true →
  score rules now answers =
    inr {| risk_score := clamp (total rules answers);
           risk_level := risk_level_of (clamp (total rules answers));
           compliance_status :=
             compliance_of (risk_level_of (clamp (total rules answers)));
           recommendations :=
             dedup [] (omap recommendation
                         (filter (λ r, triggered answers r) rules));
           created_at := now |}.
Proof. intros Hc. unfold score. by rewrite Hc. Qed.

Lemma score_incomplete (rules : list RiskRule) (now : Z)
    (answers : gmap string string) :
  complete answers = false →
  score rules now answers = inl IncompleteAnswerSetError.
Proof. intros Hc. unfold score. by rewrite Hc. Qed.

(** C3: for a complete answer set the scoring returns a result whose
    [risk_score] lies between 0 and 10: it is the sum of the contributions
    when that sum is in the interval, 10 when the sum is above and 0 when
    it is below, and the risk level is read off this clamped score. *)
Theorem score_within_bounds (rules : list RiskRule) (now : Z)
    (answers : gmap string string) :
  complete answers = true →
  ∃ r, score rules now answers = inr r ∧
       (0 <= risk_score r)%Q ∧ (risk_score r <= 10)%Q ∧
       ((0 <= total rules answers)%Q → (total rules answers <= 10)%Q →
          (risk_score r == total rules answers)%Q) ∧
       ((10 < total rules answers)%Q → risk_score r = 10%Q) ∧
       ((total rules answers < 0)%Q → risk_score r = 0%Q) ∧
       risk_level r = risk_level_of (risk_score r).
Proof.
  intros Hc. eexists. split; [by apply score_complete |]. simpl.
  pose proof (clamp_range (total rules answers)) as [Hlo Hhi].
  split_and!; try done.
  - intros H0 H10.
    destruct (clamp_cases (total rules answers))
      as [[Hle ->] | [(_ & Hge & ->) | (_ & _ & ->)]]; lra.
  - intros Habove.
    destruct (clamp_cases (total rules answers))
      as [[Hle _] | [(_ & _ & ->) | (_ & Hlt & _)]]; [lra | done | lra].
  - intros Hbelow.
    destruct (clamp_cases (total rules answers))
      as [[_ ->] | [(Hpos & _ & _) | (Hpos & _ & _)]]; [done | lra | lra].
Qed.

Lemma score_within_bounds_witness :
  complete highestRiskAnswers = true ∧
  ∃ r, score exampleRules 0 highestRiskAnswers = inr r ∧
       (risk_score r <= 10)%Q.
Proof.
  assert (complete highestRiskAnswers = true) as Hc
    by (vm_compute; reflexivity).
  split; [exact Hc |].
  destruct (score_within_bounds exampleRules 0 highestRiskAnswers Hc)
    as (r & Hr & _ & Hup & _).
  exists r. split; [exact Hr | exact Hup].
Defined.

(** C2: for a complete answer set the risk level of the result follows the
    clamped score by bands closed below: minimal below 2.5, limited from
    2.5 to below 5.0, high from 5.0 to below 7.5, unacceptable from 7.5;
    so 2.5 is limited, 5.0 is high and 7.5 is unacceptable. *)
Theorem score_risk_bands (rules : list RiskRule) (now : Z)
    (answers : gmap string string) :
  complete answers = true →
  ∃ r, score rules now answers = inr r ∧
       (risk_level r = minimal ↔ (risk_score r < 2.5)%Q) ∧
       (risk_level r = limited ↔
          (2.5 <= risk_score r)%Q ∧ (risk_score r < 5)%Q) ∧
       (risk_level r = high ↔
          (5 <= risk_score r)%Q ∧ (risk_score r < 7.5)%Q) ∧
       (risk_level r = unacceptable ↔ (7.5 <= risk_score r)%Q) ∧
       ((risk_score r == 2.5)%Q → risk_level r = limited) ∧
       ((risk_score r == 5)%Q → risk_level r = high) ∧
       ((risk_score r == 7.5)%Q → risk_level r = unacceptable).
Proof.
  intros Hc. eexists. split; [by apply score_complete |]. simpl.
  destruct (risk_level_of_cases (clamp (total rules answers)))
    as [[H1 ->] | [(H1 & H2 & ->) | [(H1 & H2 & ->) | [H1 ->]]]];
    split_and!; try (split; intros; (discriminate || lra || done));
    intros; (reflexivity || lra).
Qed.

Lemma score_risk_bands_witness :
  complete (<["biometric_identification" := "yes"]> lowestRiskAnswers) = true ∧
  ∃ r, score exampleRules 0
         (<["biometric_identification" := "yes"]> lowestRiskAnswers) = inr r ∧
       (risk_score r == 2.5)%Q ∧ risk_level r = limited.
Proof.
  assert (complete (<["biometric_identification" := "yes"]> lowestRiskAnswers)
            = true) as Hc by (vm_compute; reflexivity).
  split; [exact Hc |].
  destruct (score_risk_bands exampleRules 0 _ Hc)
    as (r & Hr & _ & _ & _ & _ & Hedge & _).
  exists r. split; [exact Hr |].
  assert (risk_score r == 2.5)%Q as Hscore.
  { change (risk_score r)
      with (match inr (A := ScoreError) r with
            | inr r' => risk_score r'
            | inl _ => 0%Q
            end).
    rewrite <- Hr. vm_compute. reflexivity. }
  split; [exact Hscore | exact (Hedge Hscore)].
Defined.

(** C4: for a complete answer set the compliance status of the result is
    read off its risk level: minimal gives compliant, limited and high give
    partially compliant, unacceptable gives non compliant; the scoring
    never answers not assessed. *)
Theorem score_compliance_status (rules : list RiskRule) (now : Z)
    (answers : gmap string string) :
  complete answers = true →
  ∃ r, score rules now answers = inr r ∧
       compliance_status r = compliance_of (risk_level r) ∧
       (risk_level r = minimal → compliance_status r = compliant) ∧
       (risk_level r = limited → compliance_status r = partially_compliant) ∧
       (risk_level r = high → compliance_status r = partially_compliant) ∧
       (risk_level r = unacceptable → compliance_status r = non_compliant) ∧
       compliance_status r ≠ not_assessed.
Proof.
  intros Hc. eexists. split; [by apply score_complete |]. simpl.
  split_and!; try done; try by intros ->.
  by destruct (risk_level_of _).
Qed.

Lemma score_compliance_status_witness :
  complete lowestRiskAnswers = true ∧
  ∃ r, score exampleRules 0 lowestRiskAnswers = inr r ∧
       risk_level r = minimal ∧ compliance_status r = compliant.
Proof.
  assert (complete lowestRiskAnswers = true) as Hc
    by (vm_compute; reflexivity).
  split; [exact Hc |].
  destruct (score_compliance_status exampleRules 0 lowestRiskAnswers Hc)
    as (r & Hr & _ & Hmin & _).
  exists r. split; [exact Hr |].
  assert (risk_level r = minimal) as Hlevel.
  { change (risk_level r)
      with (match inr (A := ScoreError) r with
            | inr r' => risk_level r'
            | inl _ => unacceptable
            end).
    rewrite <- Hr. vm_compute. reflexivity. }
  split; [exact Hlevel | exact (Hmin Hlevel)].
Defined.

(** * Further properties of the wizard *)

(** ** What the page records and sends *)

Lemma question_ids_NoDup : NoDup (id <$> questions).
Proof. apply (bool_decide_unpack _). vm_compute. exact I. Qed.

Lemma question_id_inj (q q' : Question) :
  q ∈ questions → q' ∈ questions → id q = id q' → q = q'.
Proof.
  intros [i Hi]%list_elem_of_lookup [j Hj]%list_elem_of_lookup Hid.
  assert (i = j) as ->.
  { eapply (NoDup_lookup _ _ _ _ question_ids_NoDup);
      rewrite list_lookup_fmap; [by rewrite Hi | by rewrite Hj, Hid]. }
  congruence.
Qed.

Lemma validAnswers_act (s : State) (a : Action) :
  validAnswers s → validAnswers (act s a).
Proof.
  intros Hs. destruct a as [v | | | d | |]; simpl.
  - destruct (selectOption_cases s v)
      as [-> | (q & _ & _ & Hq & Hv & ->)]; [done |].
    intros k x. simpl. destruct (decide (id q = k)) as [<- | Hne].
    + rewrite lookup_insert_eq. intros [= <-]. exists q.
      split_and!; try done. by eapply js_index_elem_of.
    + rewrite lookup_insert_ne by done. apply Hs.
  - destruct (clickNext_cases s) as [-> | ->]; [done |].
    intros k x. rewrite handleNext_responses. apply Hs.
  - destruct (clickPrevious_cases s) as [-> | ->]; [done |].
    intros k x. rewrite handlePrevious_responses. apply Hs.
  - by destruct (assessmentLoading s).
  - by destruct (assessmentLoading s).
  - destruct (AssessmentComponent s) as [[| |] |]; try done;
      intros k x; simpl; by rewrite lookup_empty.
Qed.

Lemma validAnswers_foldl (acts : list Action) (s : State) :
  validAnswers s → validAnswers (foldl act s acts).
Proof.
  revert s. induction acts as [| a acts IH]; intros s Hs; simpl; [done |].
  apply IH. by apply validAnswers_act.
Qed.

Lemma validAnswers_session (acts : list Action) : validAnswers (session acts).
Proof.
  apply validAnswers_foldl. intros k v. simpl. by rewrite lookup_empty.
Qed.

(** X1: whatever the user does on the page, every recorded answer sits
    under the id of one of the eight questions and is the value of one of
    that question's options. *)
Theorem recorded_answers_are_options (acts : list Action) (k v : string) :
  responses (session acts) !! k = Some v →
  ∃ q, q ∈ questions ∧ id q = k ∧ v ∈ value <$> options q ∧ v ≠ ""%string.
Proof.
  intros Hk. destruct (validAnswers_session acts k v Hk) as (q & Hq & Hid & Hv).
  exists q. split_and!; try done.
  pose proof option_values_nonempty as Hall.
  rewrite Forall_forall in Hall. specialize (Hall q Hq).
  rewrite Forall_forall in Hall.
  apply list_elem_of_fmap in Hv as (o & -> & Ho). by apply Hall.
Qed.

Lemma recorded_answers_are_options_witness :
  responses (session lastCardSession) !! "transparency"%string
    = Some "full"%string ∧
  ∃ q, q ∈ questions ∧ id q = "transparency"%string ∧
       "full"%string ∈ value <$> options q.
Proof.
  assert (responses (session lastCardSession) !! "transparency"%string
            = Some "full"%string) as Hk by (vm_compute; reflexivity).
  split; [exact Hk |].
  destruct (recorded_answers_are_options lastCardSession _ _ Hk)
    as (q & Hq & Hid & Hv & _).
  exists q. split; [exact Hq |]. split; [exact Hid | exact Hv].
Defined.

Lemma fullBody_at_last_card (s : State) :
  validAnswers s → answeredBefore s → nextEnabled s →
  currentStep s = questionCount - 1 → fullBody (responses s).
Proof.
  intros Hvalid Hbefore (_ & _ & qc & vc & Hqc & Hvc & Hnec) Hlast. split.
  - intros q Hq. apply list_elem_of_lookup in Hq as [i Hi].
    assert (js_index questions (Z.of_nat i) = Some q) as Hidx.
    { unfold js_index. destruct (Z.ltb_spec (Z.of_nat i) 0); [lia |].
      by rewrite Nat2Z.id. }
    assert (Z.of_nat i < questionCount) as Hlt.
    { apply lookup_lt_Some in Hi. unfold questionCount. lia. }
    assert (∃ v, responses s !! id q = Some v) as [v Hv].
    { destruct (decide (Z.of_nat i = currentStep s)) as [Heq | Hne].
      - unfold currentQuestion in Hqc. rewrite <- Heq, Hidx in Hqc.
        injection Hqc as <-. eauto.
      - assert (js_truthy (responses s !! id q) = true) as Ht
          by (apply (Hbefore (Z.of_nat i) q); [lia | done]).
        apply js_truthy_true in Ht as (v & Hv & _). eauto. }
    exists v. split; [done |].
    destruct (Hvalid _ _ Hv) as (q' & Hq' & Hid & Hopt).
    assert (q' = q) as ->; [| done].
    apply question_id_inj; [done | | done].
    apply list_elem_of_lookup. eauto.
  - intros k [v Hv]. destruct (Hvalid _ _ Hv) as (q & Hq & <- & _).
    by apply list_elem_of_fmap_2.
Qed.

Lemma postedFull_act (s : State) (a : Action) :
  validAnswers s → answeredBefore s → 0 ≤ currentStep s < questionCount →
  Forall fullBody (posted s) → Forall fullBody (posted (act s a)).
Proof.
  intros Hvalid Hbefore Hb Hs. destruct a as [v | | | d | |]; simpl.
  - by destruct (selectOption_cases s v) as [-> | (q & _ & _ & _ & _ & ->)].
  - destruct (clickNext_cases_enabled s) as [-> | [Hen ->]]; [done |].
    unfold handleNext.
    destruct (Z.ltb_spec (currentStep s) (questionCount - 1)); [done |].
    simpl. apply Forall_app. split; [done |].
    apply Forall_singleton. apply fullBody_at_last_card; try done. lia.
  - destruct (clickPrevious_cases s) as [-> | ->]; [done |].
    unfold handlePrevious. by destruct (_ <? _).
  - by destruct (assessmentLoading s).
  - by destruct (assessmentLoading s).
  - destruct (AssessmentComponent s) as [[| |] |]; try done; constructor.
Qed.

Lemma postedFull_session (acts : list Action) :
  Forall fullBody (posted (session acts)).
Proof.
  induction acts as [| a acts IH] using rev_ind; [constructor |].
  unfold session in *. rewrite foldl_app. simpl.
  apply postedFull_act; try done.
  - apply validAnswers_session.
  - apply answeredBefore_session.
  - apply reachable_bounds, session_reachable.
Qed.

(** X2: whatever the user does on the page, every body sent to
    [/assessments] answers each of the eight questions with one of its own
    options and has no other key: a partial or foreign answer set never
    leaves the page. *)
Theorem posted_bodies_are_full (acts : list Action)
    (body : gmap string string) :
  body ∈ posted (session acts) →
  (∀ q, q ∈ questions →
        ∃ v, body !! id q = Some v ∧ v ∈ value <$> options q) ∧
  (∀ k, is_Some (body !! k) → k ∈ id <$> questions).
Proof.
  intros Hbody. pose proof (postedFull_session acts) as Hall.
  rewrite Forall_forall in Hall. apply (Hall body Hbody).
Qed.

Lemma session_snoc (acts : list Action) (a : Action) :
  session (acts ++ [a]) = act (session acts) a.
Proof. unfold session. by rewrite foldl_app. Qed.

Lemma handleNext_last (s : State) :
  currentStep s = questionCount - 1 → handleNext s = submitAssessment s.
Proof.
  intros Hlast. unfold handleNext.
  destruct (Z.ltb_spec (currentStep s) (questionCount - 1)); [lia | done].
Qed.

Lemma handleNext_before_last (s : State) :
  currentStep s < questionCount - 1 →
  handleNext s = mkState (currentStep s + 1) (responses s)
                   (assessmentLoading s) (result s) (posted s).
Proof.
  intros Hlast. unfold handleNext.
  destruct (Z.ltb_spec (currentStep s) (questionCount - 1)); [done | lia].
Qed.

Lemma lastCardSession_enabled : nextEnabled (session lastCardSession).
Proof.
  apply nextEnabled_view. eexists. split; [vm_compute; reflexivity | done].
Qed.

Lemma lastCardSession_step :
  currentStep (session lastCardSession) = questionCount - 1.
Proof. vm_compute. reflexivity. Qed.

Lemma lastCardSession_click :
  session (lastCardSession ++ [ClickNext])
    = submitAssessment (session lastCardSession).
Proof.
  rewrite session_snoc.
  transitivity (clickNext (session lastCardSession)); [done |].
  rewrite (clickNext_enabled _ lastCardSession_enabled).
  apply handleNext_last, lastCardSession_step.
Qed.

Lemma posted_submitAssessment (s : State) :
  responses s ∈ posted (submitAssessment s).
Proof. unfold submitAssessment. simpl. apply elem_of_app. right. constructor. Qed.

Lemma posted_bodies_are_full_witness :
  responses (session lastCardSession)
    ∈ posted (session (lastCardSession ++ [ClickNext])) ∧
  ∀ k, is_Some (responses (session lastCardSession) !! k) →
       k ∈ id <$> questions.
Proof.
  assert (responses (session lastCardSession)
            ∈ posted (session (lastCardSession ++ [ClickNext]))) as Hin.
  { rewrite lastCardSession_click. apply posted_submitAssessment. }
  split; [exact Hin |].
  exact (proj2 (posted_bodies_are_full _ _ Hin)).
Defined.

(** X3: whatever the user does on the page, every question before the
    card shown has a recorded answer, one of its own options: no card is
    ever skipped. *)
Theorem no_question_skipped (acts : list Action) (i : Z) (q : Question) :
  0 ≤ i < currentStep (session acts) →
  js_index questions i = Some q →
  ∃ v, responses (session acts) !! id q = Some v ∧
       v ∈ value <$> options q.
Proof.
  intros Hi Hq.
  pose proof (answeredBefore_session acts i q Hi Hq) as Ht.
  apply js_truthy_true in Ht as (v & Hv & _). exists v. split; [done |].
  destruct (validAnswers_session acts _ _ Hv) as (q' & Hq' & Hid & Hopt).
  assert (q' = q) as ->; [| done].
  apply question_id_inj; [done | by eapply js_index_elem_of | done].
Qed.

Lemma no_question_skipped_witness :
  ∃ v, responses (session lastCardSession) !! "data_processing"%string
         = Some v ∧
       v ∈ ["sensitive"; "personal"; "anonymous"; "none"]%string.
Proof.
  assert (0 ≤ 5 < currentStep (session lastCardSession)) as Hi
    by (rewrite lastCardSession_step; vm_compute; split;
        [discriminate | reflexivity]).
  destruct (no_question_skipped lastCardSession 5 _ Hi eq_refl)
    as (v & Hv & Hopt).
  exists v. split; [exact Hv | exact Hopt].
Defined.

(** ** The request in flight *)

Lemma clickPrevious_cases_shown (s : State) :
  clickPrevious s = s ∨
  (result s = None ∧ assessmentLoading s = false ∧
   clickPrevious s = handlePrevious s).
Proof.
  unfold clickPrevious.
  destruct (AssessmentComponent s) as [[| | w] |] eqn:Hv; auto.
  destruct (previousDisabled w); auto.
  right. by destruct (wizard_view_inv s w Hv) as (? & ? & _).
Qed.

Lemma requestMatches_act (s : State) (a : Action) :
  0 ≤ currentStep s < questionCount →
  requestMatches s → requestMatches (act s a).
Proof.
  intros Hb Hs. pose proof Hs as [Hload Hpend].
  destruct a as [v | | | d | |]; simpl.
  - destruct (selectOption_cases s v)
      as [-> | (q & Hr & Hl & _ & _ & ->)]; [done |].
    split; simpl; rewrite ?Hr, ?Hl; [done | by intros [? | ?]].
  - destruct (clickNext_cases_enabled s) as [-> | [(Hr & Hl & _) ->]];
      [done |].
    unfold handleNext.
    destruct (Z.ltb_spec (currentStep s) (questionCount - 1)).
    + split; simpl; rewrite ?Hr, ?Hl; [done | by intros [? | ?]].
    + split; simpl; [done |]. intros _. split; [lia | apply last_snoc].
  - destruct (clickPrevious_cases_shown s) as [-> | (Hr & Hl & ->)];
      [done |].
    unfold handlePrevious. destruct (0 <? currentStep s); [| done].
    split; simpl; rewrite ?Hr, ?Hl; [done | by intros [? | ?]].
  - destruct (assessmentLoading s) eqn:Hl; [| done].
    split; simpl; [done |]. intros _. apply Hpend. by left.
  - destruct (assessmentLoading s) eqn:Hl; [| done].
    split; simpl; [done |]. rewrite Hload by done. by intros [? | ?].
  - destruct (AssessmentComponent s) as [[| |] |]; try done;
      split; simpl; [done | by intros [? | ?]].
Qed.

Lemma requestMatches_session (acts : list Action) :
  requestMatches (session acts).
Proof.
  induction acts as [| a acts IH] using rev_ind.
  - split; simpl; [done | by intros [? | ?]].
  - rewrite session_snoc. apply requestMatches_act; [| done].
    apply reachable_bounds, session_reachable.
Qed.

(** X4: whatever the user does on the page, a result card or a spinner is
    only ever shown on the last step, and the last body sent is exactly
    the answer set the component holds at that moment. *)
Theorem result_matches_answers (acts : list Action) :
  assessmentLoading (session acts) = true ∨ result (session acts) ≠ None →
  currentStep (session acts) = questionCount - 1 ∧
  last (posted (session acts)) = Some (responses (session acts)) ∧
  (assessmentLoading (session acts) = true → result (session acts) = None).
Proof.
  intros Hshown. destruct (requestMatches_session acts) as [Hload Hpend].
  destruct (Hpend Hshown). done.
Qed.

Lemma result_matches_answers_witness :
  last (posted (session (lastCardSession ++ [ClickNext])))
    = Some (responses (session (lastCardSession ++ [ClickNext]))).
Proof.
  refine (proj1 (proj2
            (result_matches_answers (lastCardSession ++ [ClickNext]) _))).
  left. rewrite lastCardSession_click. reflexivity.
Defined.

(** X5: while a request is pending or a result is shown, picking an
    answer and clicking Next or Previous change nothing, so a second click
    cannot send the answers twice; any number of clicks on Next sends at
    most one request. *)
Theorem no_double_submit (s : State) :
  (assessmentLoading s = true ∨ result s ≠ None →
     ∀ v, selectOption s v = s ∧ clickNext s = s ∧ clickPrevious s = s) ∧
  (∀ n : nat,
     (length (posted (Nat.iter n clickNext s)) ≤ length (posted s) + 1)%nat).
Proof.
  assert (∀ t : State, assessmentLoading t = true ∨ result t ≠ None →
            ∀ v, selectOption t v = t ∧ clickNext t = t ∧ clickPrevious t = t)
    as Hidle.
  { intros t Hshown v. unfold selectOption, clickNext, clickPrevious.
    unfold AssessmentComponent. destruct (result t); [done |].
    destruct (assessmentLoading t); [done |]. by destruct Hshown. }
  split; [apply Hidle |].
  assert (∀ n : nat,
            posted (Nat.iter n clickNext s) = posted s ∨
            (assessmentLoading (Nat.iter n clickNext s) = true ∧
             length (posted (Nat.iter n clickNext s))
               = S (length (posted s)))) as Hiter.
  { induction n as [| n IH]; simpl; [by left |].
    set (t := Nat.iter n clickNext s) in *.
    destruct IH as [Hsame | [Hload Hlen]].
    - destruct (clickNext_cases t) as [-> | ->]; [by left |].
      unfold handleNext. destruct (currentStep t <? questionCount - 1);
        simpl; [by left | right].
      split; [done |]. rewrite length_app, Hsame. simpl. lia.
    - right. destruct (Hidle t (or_introl Hload) ""%string) as (_ & -> & _).
      done. }
  intros n. destruct (Hiter n) as [-> | [_ ->]]; lia.
Qed.

Lemma no_double_submit_witness :
  clickNext (session (lastCardSession ++ [ClickNext]))
    = session (lastCardSession ++ [ClickNext]).
Proof.
  refine (proj1 (proj2 (proj1 (no_double_submit _) _ ""%string))).
  left. rewrite lastCardSession_click. reflexivity.
Defined.

(** X6: when the request fails on the last card, the wizard card comes
    back exactly as it was, with every answer kept and Next enabled, and a
    second click sends the same answers again. *)
Theorem retry_after_failure (s : State) :
  nextEnabled s → currentStep s = questionCount - 1 →
  act (clickNext s) ServerFails
    = mkState (currentStep s) (responses s) false None
              (posted s ++ [responses s]) ∧
  AssessmentComponent (act (clickNext s) ServerFails) = AssessmentComponent s ∧
  nextEnabled (act (clickNext s) ServerFails) ∧
  posted (clickNext (act (clickNext s) ServerFails))
    = posted s ++ [responses s; responses s].
Proof.
  intros Hen Hlast. pose proof Hen as (Hr & Hl & Hq).
  rewrite (clickNext_enabled s Hen), (handleNext_last s Hlast).
  assert (act (submitAssessment s) ServerFails
            = mkState (currentStep s) (responses s) false None
                      (posted s ++ [responses s])) as ->.
  { simpl. unfold submitRejected. simpl. by rewrite Hr. }
  set (s' := mkState _ _ _ _ _).
  assert (nextEnabled s') as Hen' by done.
  split_and!; try done.
  - unfold AssessmentComponent, currentQuestion. simpl. by rewrite Hr, Hl.
  - rewrite (clickNext_enabled s' Hen'), (handleNext_last s' Hlast).
    simpl. by rewrite <- app_assoc.
Qed.

Lemma retry_after_failure_witness :
  nextEnabled (session lastCardSession) ∧
  currentStep (session lastCardSession) = questionCount - 1 ∧
  nextEnabled (act (clickNext (session lastCardSession)) ServerFails).
Proof.
  split; [exact lastCardSession_enabled |].
  split; [exact lastCardSession_step |].
  exact (proj1 (proj2 (proj2
           (retry_after_failure _ lastCardSession_enabled
              lastCardSession_step)))).
Defined.

(** ** What the card shows *)

Lemma progress_value (s : State) :
  (progress s == inject_Z (currentStep s + 1) * 12.5)%Q.
Proof.
  unfold progress. rewrite questionCount_eq.
  unfold Qeq, Qdiv, Qmult, Qinv, inject_Z. simpl. lia.
Qed.

(** X7: on every wizard card of a reachable state the step counter reads
    between 1 and 8 of 8, the progress bar is 12.5 per step and at most
    100, and the button reads Finalizar exactly on the last card, where
    the bar is full and a click sends the answers; on every other card it
    reads Siguiente and a click moves one card on without sending. *)
Theorem finish_label_and_progress (s : State) (w : Wizard) :
  reachable s → AssessmentComponent s = Normal (WizardView w) →
  stepLabel w = (currentStep s + 1, 8) ∧ 1 ≤ currentStep s + 1 ≤ 8 ∧
  (progressValue w == inject_Z (currentStep s + 1) * 12.5)%Q ∧
  (0 < progressValue w)%Q ∧ (progressValue w <= 100)%Q ∧
  (nextLabel w = "Finalizar"%string ↔ currentStep s = questionCount - 1) ∧
  (nextLabel w = "Siguiente"%string ↔ currentStep s < questionCount - 1) ∧
  (nextLabel w = "Finalizar"%string ↔ (progressValue w == 100)%Q) ∧
  (nextDisabled w = false → nextLabel w = "Finalizar"%string →
     clickNext s = submitAssessment s) ∧
  (nextDisabled w = false → nextLabel w = "Siguiente"%string →
     currentStep (clickNext s) = currentStep s + 1 ∧
     posted (clickNext s) = posted s).
Proof.
  intros Hs Hw. pose proof (reachable_bounds s Hs) as Hb.
  rewrite questionCount_eq in Hb.
  assert (nextLabel w = (if currentStep s =? questionCount - 1
                         then "Finalizar"%string else "Siguiente"%string)
          ∧ progressValue w = progress s
          ∧ stepLabel w = (currentStep s + 1, questionCount)) as (Hlab & Hprog & Hstep).
  { unfold AssessmentComponent in Hw. destruct (result s); [done |].
    destruct (assessmentLoading s); [done |].
    destruct (currentQuestion s); [| done]. by injection Hw as <-. }
  rewrite Hlab, Hprog, Hstep. rewrite !questionCount_eq.
  pose proof (progress_value s) as Hval.
  assert (0 < inject_Z (currentStep s + 1))%Q as Hpos
    by (unfold Qlt, inject_Z; simpl; lia).
  assert (inject_Z (currentStep s + 1) <= 8)%Q as Hup
    by (unfold Qle, inject_Z; simpl; lia).
  assert (currentStep s = 7 ↔ (inject_Z (currentStep s + 1) == 8)%Q) as Hfull
    by (unfold Qeq, inject_Z; simpl; lia).
  assert (clickNext s = if nextDisabled w then s else handleNext s) as Hclick
    by (unfold clickNext; by rewrite Hw).
  split; [done |]. split; [lia |]. split; [done |].
  split; [lra |]. split; [lra |].
  destruct (Z.eqb_spec (currentStep s) (8 - 1)) as [Heq | Hne].
  - assert (inject_Z (currentStep s + 1) == 8)%Q as H8 by (apply Hfull; lia).
    split; [done |]. split; [split; [done | lia] |].
    split; [split; [intros _; lra | done] |].
    split.
    + intros Hdis _. rewrite Hclick, Hdis. apply handleNext_last.
      rewrite questionCount_eq. lia.
    + done.
  - assert (¬ (inject_Z (currentStep s + 1) == 8)%Q) as H8
      by (rewrite <- Hfull; lia).
    split; [split; [done | lia] |]. split; [split; [lia | done] |].
    split; [split; [done | intros H100; destruct H8; lra] |].
    split; [done |].
    intros Hdis _. rewrite Hclick, Hdis.
    rewrite handleNext_before_last by (rewrite questionCount_eq; lia).
    done.
Qed.

Lemma finish_label_and_progress_witness :
  ∃ w, AssessmentComponent (session lastCardSession) = Normal (WizardView w) ∧
       nextLabel w = "Finalizar"%string ∧ (progressValue w == 100)%Q.
Proof.
  destruct (proj1 (nextEnabled_view _) lastCardSession_enabled)
    as (w & Hw & _).
  exists w. split; [exact Hw |].
  destruct (finish_label_and_progress _ w (session_reachable _) Hw)
    as (_ & _ & _ & _ & _ & Hlast & _ & Hfull & _).
  assert (nextLabel w = "Finalizar"%string) as Hlab
    by (apply Hlast, lastCardSession_step).
  split; [exact Hlab | exact (proj1 Hfull Hlab)].
Defined.

(** X8: [handleNext] has no guard of its own: called in any state it
    changes it (it moves on or sends), so the disabled attribute of the
    button is the only thing that keeps an unanswered card from being
    passed. [handlePrevious] guards itself: it changes nothing exactly
    when the cursor is at 0, which is when its button is disabled. *)
Theorem handler_guards (s : State) :
  handleNext s ≠ s ∧
  (handlePrevious s = s ↔ currentStep s ≤ 0) ∧
  (∀ w, AssessmentComponent s = Normal (WizardView w) →
        (previousDisabled w = true ↔ handlePrevious s = s) ∧
        clickPrevious s = handlePrevious s).
Proof.
  assert (handlePrevious s = s ↔ currentStep s ≤ 0) as Hprev.
  { unfold handlePrevious. destruct (Z.ltb_spec 0 (currentStep s)).
    - split; [| lia]. intros Heq. apply (f_equal currentStep) in Heq.
      simpl in Heq. lia.
    - split; [lia | done]. }
  split_and!; [| done |].
  - unfold handleNext. destruct (currentStep s <? questionCount - 1);
      intros Heq.
    + apply (f_equal currentStep) in Heq. simpl in Heq. lia.
    + apply (f_equal (λ t, length (posted t))) in Heq. simpl in Heq.
      rewrite length_app in Heq. simpl in Heq. lia.
  - intros w Hw.
    destruct (wizard_view_inv s w Hw) as (_ & _ & Hq & _ & Hdis & _).
    assert (0 ≤ currentStep s) as Hpos.
    { assert (is_Some (currentQuestion s)) as Hsome by eauto.
      apply currentQuestion_is_Some in Hsome. lia. }
    assert (previousDisabled w = true ↔ handlePrevious s = s) as Hiff.
    { rewrite Hprev, Hdis. destruct (Z.eqb_spec (currentStep s) 0); split;
        (done || lia). }
    split; [done |]. unfold clickPrevious. rewrite Hw.
    destruct (previousDisabled w); [| done]. symmetry. by apply Hiff.
Qed.

Lemma handler_guards_witness :
  clickPrevious (session lastCardSession)
    = handlePrevious (session lastCardSession).
Proof.
  destruct (proj1 (nextEnabled_view _) lastCardSession_enabled)
    as (w & Hw & _).
  exact (proj2 (proj2 (proj2 (handler_guards _)) w Hw)).
Defined.

(** ** Picking answers *)

Lemma selectOption_shown (s : State) (q : Question) (v : string) :
  result s = None → assessmentLoading s = false →
  currentQuestion s = Some q → v ∈ value <$> options q →
  selectOption s v = handleAnswer s (id q) v.
Proof.
  intros Hr Hl Hq Hv. unfold selectOption, AssessmentComponent.
  rewrite Hr, Hl, Hq. simpl. by rewrite bool_decide_eq_true_2.
Qed.

Lemma handleAnswer_enables (s : State) (q : Question) (v : string) :
  result s = None → assessmentLoading s = false →
  currentQuestion s = Some q → v ∈ value <$> options q →
  nextEnabled (handleAnswer s (id q) v).
Proof.
  intros Hr Hl Hq Hv. split_and!; try done. exists q, v.
  split_and!; [done | apply lookup_insert_eq |].
  by eapply shown_option_nonempty.
Qed.

(** X9: recording an answer twice for one question keeps the later value
    only, and answers for different questions do not depend on the order in
    which they were recorded. On a card, picking an option of the question
    shown selects exactly that radio item and enables Next, whatever had
    been picked on that card before. *)
Theorem later_answer_replaces_earlier (s : State) :
  (∀ q v1 v2, handleAnswer (handleAnswer s q v1) q v2 = handleAnswer s q v2) ∧
  (∀ q1 q2 v1 v2, q1 ≠ q2 →
     handleAnswer (handleAnswer s q1 v1) q2 v2
       = handleAnswer (handleAnswer s q2 v2) q1 v1) ∧
  (∀ w v1 v2, AssessmentComponent s = Normal (WizardView w) →
     v2 ∈ value <$> options (shown w) →
     selectOption (selectOption s v1) v2 = selectOption s v2 ∧
     ∃ w', AssessmentComponent (selectOption s v2) = Normal (WizardView w') ∧
           shown w' = shown w ∧ radioValue w' = v2 ∧
           nextDisabled w' = false ∧
           currentStep (selectOption s v2) = currentStep s).
Proof.
  split_and!.
  - intros q v1 v2. unfold handleAnswer. simpl. by rewrite insert_insert_eq.
  - intros q1 q2 v1 v2 Hne. unfold handleAnswer. simpl.
    by rewrite insert_insert_ne.
  - intros w v1 v2 Hw Hv2.
    destruct (wizard_view_inv s w Hw) as (Hr & Hl & Hq & _).
    rewrite (selectOption_shown s _ v2 Hr Hl Hq Hv2). split.
    + destruct (selectOption_cases s v1)
        as [-> | (q & _ & _ & Hq' & Hv1 & ->)].
      * by apply selectOption_shown.
      * assert (q = shown w) as -> by congruence.
        rewrite (selectOption_shown _ (shown w) v2); try done.
        unfold handleAnswer. simpl. by rewrite insert_insert_eq.
    + pose proof (handleAnswer_enables s _ v2 Hr Hl Hq Hv2) as Hen.
      apply nextEnabled_view in Hen as (w' & Hw' & Hdis).
      exists w'. split; [done |].
      destruct (wizard_view_inv _ w' Hw') as (_ & _ & Hq' & Hradio & _).
      assert (shown w' = shown w) as Hsame.
      { unfold currentQuestion in *. simpl in Hq'. congruence. }
      split_and!; try done.
      rewrite Hradio, Hsame. simpl. rewrite lookup_insert_eq.
      unfold js_or_empty. simpl.
      assert (v2 ≠ ""%string) as Hne
        by apply (shown_option_nonempty s (shown w) v2 Hq Hv2).
      apply String.eqb_neq in Hne. by rewrite Hne.
Qed.

Lemma later_answer_replaces_earlier_witness :
  selectOption (selectOption (session lastCardSession) "none") "periodic"
    = selectOption (session lastCardSession) "periodic".
Proof.
  destruct (proj1 (nextEnabled_view _) lastCardSession_enabled)
    as (w & Hw & _).
  refine (proj1 (proj2 (proj2 (later_answer_replaces_earlier _))
                  w "none"%string "periodic"%string Hw _)).
  assert (shown w = mkQuestion "human_oversight"
              "Existe supervision humana en las decisiones de IA?" "radio"
              [ mkOption "continuous" "Supervision humana continua";
                mkOption "periodic" "Revision periodica por humanos";
                mkOption "exception" "Solo en casos excepcionales";
                mkOption "none" "No hay supervision humana" ]) as ->.
  { destruct (wizard_view_inv _ w Hw) as (_ & _ & Hq & _).
    assert (Some (shown w) = js_index questions 7) as Hidx.
    { rewrite <- Hq. unfold currentQuestion.
      by rewrite lastCardSession_step. }
    by injection Hidx. }
  simpl. apply list_elem_of_further, list_elem_of_here.
Defined.

(** ** A whole run *)

Lemma foldl_insert_notin (kvs : list (string * string))
    (m : gmap string string) (k : string) :
  k ∉ kvs.*1 →
  foldl (λ acc kv, <[kv.1 := kv.2]> acc) m kvs !! k = m !! k.
Proof.
  revert m. induction kvs as [| [k0 v0] kvs IH]; intros m Hk; simpl; [done |].
  rewrite fmap_cons, not_elem_of_cons in Hk. destruct Hk as [Hne Hk].
  rewrite IH by done. simpl. by rewrite lookup_insert_ne.
Qed.

Lemma foldl_insert_lookup (kvs : list (string * string))
    (m : gmap string string) (i : nat) (k v : string) :
  NoDup kvs.*1 → kvs !! i = Some (k, v) →
  foldl (λ acc kv, <[kv.1 := kv.2]> acc) m kvs !! k = Some v.
Proof.
  revert m i. induction kvs as [| [k0 v0] kvs IH]; intros m i Hnd Hi;
    [done |].
  rewrite fmap_cons, NoDup_cons in Hnd. destruct Hnd as [Hk0 Hnd]. simpl.
  destruct i as [| i]; simpl in Hi.
  - injection Hi as -> ->. rewrite foldl_insert_notin by done.
    apply lookup_insert_eq.
  - by eapply IH.
Qed.

Lemma answerAll_from (qs : list Question) (vs : list string) (s : State) :
  Forall2 (λ q v, v ∈ value <$> options q) qs vs →
  qs ≠ [] →
  drop (Z.to_nat (currentStep s)) questions = qs →
  0 ≤ currentStep s → result s = None → assessmentLoading s = false →
  assessmentLoading (foldl act s (answerAll vs)) = true ∧
  result (foldl act s (answerAll vs)) = None ∧
  currentStep (foldl act s (answerAll vs)) = questionCount - 1 ∧
  posted (foldl act s (answerAll vs))
    = posted s ++ [responses (foldl act s (answerAll vs))] ∧
  responses (foldl act s (answerAll vs))
    = foldl (λ acc kv, <[kv.1 := kv.2]> acc) (responses s)
        (zip (id <$> qs) vs).
Proof.
  intros Hall. revert s.
  induction Hall as [| q v qs vs Hv Hall IH]; intros s Hne Hdrop Hpos Hr Hl;
    [done |].
  assert (questions !! Z.to_nat (currentStep s) = Some q) as Hlook.
  { pose proof (lookup_drop questions (Z.to_nat (currentStep s)) 0) as Hd.
    rewrite Hdrop, Nat.add_0_r in Hd. done. }
  assert (drop (S (Z.to_nat (currentStep s))) questions = qs) as Hrest.
  { replace (S (Z.to_nat (currentStep s)))
      with (Z.to_nat (currentStep s) + 1)%nat by lia.
    by rewrite <- drop_drop, Hdrop. }
  assert (currentQuestion s = Some q) as Hq.
  { unfold currentQuestion, js_index.
    by destruct (Z.ltb_spec (currentStep s) 0); [lia |]. }
  unfold answerAll. rewrite bind_cons. fold (answerAll vs).
  rewrite foldl_app. simpl.
  rewrite (selectOption_shown s q v Hr Hl Hq Hv).
  rewrite (clickNext_enabled _ (handleAnswer_enables s q v Hr Hl Hq Hv)).
  destruct qs as [| q' qs'].
  - apply Forall2_nil_inv_l in Hall as ->. simpl.
    assert (currentStep s = questionCount - 1) as Hlast.
    { apply lookup_lt_Some in Hlook.
      apply (f_equal length) in Hrest. rewrite length_drop in Hrest.
      change (length (@nil Question)) with 0%nat in Hrest.
      unfold questionCount. lia. }
    rewrite handleNext_last by done. simpl. done.
  - assert (currentStep s < questionCount - 1) as Hlt.
    { assert (S (Z.to_nat (currentStep s)) < length questions)%nat.
      { apply lookup_lt_is_Some.
        pose proof (lookup_drop questions (S (Z.to_nat (currentStep s))) 0)
          as Hd. rewrite Hrest, Nat.add_0_r in Hd. simpl in Hd. eauto. }
      unfold questionCount. lia. }
    rewrite handleNext_before_last by done. simpl.
    set (s1 := mkState _ _ _ _ _).
    assert (drop (Z.to_nat (currentStep s1)) questions = q' :: qs') as Hd1.
    { simpl. replace (Z.to_nat (currentStep s + 1))
        with (S (Z.to_nat (currentStep s))) by lia.
      done. }
    assert (0 ≤ currentStep s1) as Hp1 by (simpl; lia).
    destruct (IH s1 ltac:(done) Hd1 Hp1 Hr Hl)
      as (IHl & IHr & IHstep & IHposted & IHresp).
    by rewrite IHl, IHr, IHstep, IHposted, IHresp.
Qed.

(** X10: when the user goes through the eight cards in order, picks one
    option on each and clicks Next, the last click sends a single request
    and its body holds, under the id of every question, the very option
    that was picked for it. *)
Theorem complete_run_sends_choices (vs : list string) :
  Forall2 (λ q v, v ∈ value <$> options q) questions vs →
  assessmentLoading (session (answerAll vs)) = true ∧
  result (session (answerAll vs)) = None ∧
  ∃ body, posted (session (answerAll vs)) = [body] ∧
          ∀ i q v, questions !! i = Some q → vs !! i = Some v →
                   body !! id q = Some v.
Proof.
  intros Hall.
  destruct (answerAll_from questions vs initialState Hall)
    as (Hl & Hr & _ & Hposted & Hresp); try done.
  split_and!; try done.
  exists (responses (session (answerAll vs))). split; [done |].
  intros i q v Hq Hv. unfold session at 1. rewrite Hresp.
  apply (foldl_insert_lookup _ _ i).
  - rewrite fst_zip; [apply question_ids_NoDup |].
    rewrite length_fmap. by rewrite (Forall2_length _ _ _ Hall).
  - rewrite lookup_zip_with, list_lookup_fmap, Hq. simpl. by rewrite Hv.
Qed.

Lemma firstOptions_valid :
  Forall2 (λ q v, v ∈ value <$> options q) questions firstOptions.
Proof.
  unfold firstOptions, questions. simpl. repeat constructor.
Qed.

Lemma complete_run_sends_choices_witness :
  Forall2 (λ q v, v ∈ value <$> options q) questions firstOptions ∧
  assessmentLoading (session (answerAll firstOptions)) = true.
Proof.
  split; [exact firstOptions_valid |].
  exact (proj1 (complete_run_sends_choices _ firstOptions_valid)).
Defined.

(** * Properties of the authentication provider *)

Section AuthProviderFacts.

Context `{Json}.

Lemma authEffect_no_token (s : AuthState) :
  js_truthy (token s) = false →
  authEffect s = mkAuth (user s) (token s) false (localStorage s)
                        (authorization s).
Proof. intros Ht. unfold authEffect. by rewrite Ht. Qed.

Lemma authEffect_restores (s : AuthState) (t d : string) (u : JsonValue) :
  token s = Some t → t ≠ ""%string →
  localStorage s !! "user"%string = Some d →
  d ≠ ""%string → d ≠ "undefined"%string → d ≠ "null"%string →
  JSON_parse d = Some u → hasId u = true →
  authEffect s = mkAuth (Some u) (Some t) false (localStorage s)
                        (Some (bearer t)).
Proof.
  intros Ht Hne Hd H1 H2 H3 Hparse Hid. unfold authEffect.
  rewrite Ht. simpl. apply String.eqb_neq in Hne, H1, H2, H3.
  rewrite Hne. simpl. by rewrite Hd, H1, H2, H3, Hparse, Hid.
Qed.

Lemma authEffect_drops (s : AuthState) (t : string) :
  token s = Some t → t ≠ ""%string →
  (localStorage s !! "user"%string = None ∨
   ∃ d, localStorage s !! "user"%string = Some d ∧
        (d = ""%string ∨ d = "undefined"%string ∨ d = "null"%string ∨
         JSON_parse d = None)) →
  authEffect s = mkAuth (user s) None false
                        (delete "user" (delete "token" (localStorage s)))
                        (Some (bearer t)).
Proof.
  intros Ht Hne Hbad. unfold authEffect. rewrite Ht. simpl.
  apply String.eqb_neq in Hne. rewrite Hne. simpl.
  destruct Hbad as [-> | (d & -> & Hd)]; [done |].
  destruct Hd as [-> | [-> | [-> | Hparse]]]; try done.
  rewrite Hparse. by destruct (_ && _).
Qed.

(** X11: after a login with a non-empty token and a user that has an id
    and survives the JSON round trip, the provider holds that user and
    token with the matching [Authorization] header, and a page reload
    restores exactly that session from [localStorage]. *)
Theorem login_survives_reload (s : AuthState) (u : JsonValue) (t : string) :
  t ≠ ""%string → hasId u = true →
  JSON_parse (JSON_stringify u) = Some u →
  JSON_stringify u ≠ ""%string ∧ JSON_stringify u ≠ "undefined"%string ∧
    JSON_stringify u ≠ "null"%string →
  user (settle (token s) (login s u t)) = Some u ∧
  token (settle (token s) (login s u t)) = Some t ∧
  authorization (settle (token s) (login s u t)) = Some (bearer t) ∧
  mount (localStorage (settle (token s) (login s u t)))
    = mkAuth (Some u) (Some t) false
             (<["user" := JSON_stringify u]>
                (<["token" := t]> (localStorage s)))
             (Some (bearer t)).
Proof.
  intros Hne Hid Hround (H1 & H2 & H3).
  set (ls := <["user" := JSON_stringify u]> (<["token" := t]> (localStorage s))).
  assert (∀ s0 : AuthState, token s0 = Some t → localStorage s0 = ls →
            authEffect s0 = mkAuth (Some u) (Some t) false ls (Some (bearer t)))
    as Heffect.
  { intros s0 Ht Hls.
    rewrite (authEffect_restores s0 t (JSON_stringify u) u); try done.
    - by rewrite Hls.
    - rewrite Hls. apply lookup_insert_eq. }
  assert (localStorage (settle (token s) (login s u t)) = ls ∧
          user (settle (token s) (login s u t)) = Some u ∧
          token (settle (token s) (login s u t)) = Some t ∧
          authorization (settle (token s) (login s u t)) = Some (bearer t))
    as (Hls & Hu & Ht & Ha).
  { unfold settle. destruct (decide (token (login s u t) = token s)); [done |].
    rewrite (Heffect (login s u t)) by done. simpl.
    try case_decide; done. }
  split_and!; try done. rewrite Hls. unfold mount.
  assert (ls !! "token"%string = Some t) as Htok.
  { unfold ls. rewrite lookup_insert_ne by done. apply lookup_insert_eq. }
  rewrite Heffect by (simpl; done). simpl. rewrite Htok.
  try case_decide; done.
Qed.

(** X12: after a logout the user, the token and the [Authorization]
    header are gone, [localStorage] has lost its [token] and [user] entries
    and kept every other one, and a page reload stays logged out. *)
Theorem logout_clears_session (s : AuthState) :
  user (settle (token s) (logout s)) = None ∧
  token (settle (token s) (logout s)) = None ∧
  authorization (settle (token s) (logout s)) = None ∧
  localStorage (settle (token s) (logout s))
    = delete "user" (delete "token" (localStorage s)) ∧
  localStorage (settle (token s) (logout s)) !! "token"%string = None ∧
  localStorage (settle (token s) (logout s)) !! "user"%string = None ∧
  (∀ k : string, k ≠ "token"%string → k ≠ "user"%string →
     localStorage (settle (token s) (logout s)) !! k = localStorage s !! k) ∧
  mount (localStorage (settle (token s) (logout s)))
    = mkAuth None None false
             (delete "user" (delete "token" (localStorage s))) None.
Proof.
  assert (settle (token s) (logout s) = logout s ∨
          settle (token s) (logout s)
            = mkAuth None None false
                (delete "user" (delete "token" (localStorage s))) None)
    as Hsettled.
  { unfold settle. destruct (decide (token (logout s) = token s)); [by left |].
    right. rewrite (authEffect_no_token (logout s)) by done. simpl.
    try case_decide; done. }
  assert (delete "user" (delete "token" (localStorage s)) !! "token"%string
            = None) as Htok
    by (rewrite lookup_delete_ne by done; apply lookup_delete_eq).
  assert (localStorage (settle (token s) (logout s))
            = delete "user" (delete "token" (localStorage s))) as Hls
    by by destruct Hsettled as [-> | ->].
  rewrite Hls.
  split; [by destruct Hsettled as [-> | ->] |].
  split; [by destruct Hsettled as [-> | ->] |].
  split; [by destruct Hsettled as [-> | ->] |].
  split; [done |]. split; [done |].
  split; [apply lookup_delete_eq |].
  split; [intros k Hk1 Hk2; by rewrite !lookup_delete_ne |].
  unfold mount.
  rewrite authEffect_no_token by (simpl; by rewrite Htok).
  simpl. rewrite Htok. try case_decide; done.
Qed.

Lemma stale_session_dropped_aux (storage : gmap string string) (t : string) :
  storage !! "token"%string = Some t → t ≠ ""%string →
  (storage !! "user"%string = None ∨
   ∃ d, storage !! "user"%string = Some d ∧
        (d = ""%string ∨ d = "undefined"%string ∨ d = "null"%string ∨
         JSON_parse d = None)) →
  mount storage
    = mkAuth None None false (delete "user" (delete "token" storage))
             (Some (bearer t)).
Proof.
  intros Htok Hne Hbad. unfold mount.
  rewrite (authEffect_drops _ t) by (simpl; done). simpl. rewrite Htok.
  destruct (decide (None = Some t)); [done |].
  by rewrite authEffect_no_token.
Qed.

(** X13: a page load that finds a non-empty token but no usable stored
    user (none, an empty string, the text undefined or null, or text that
    does not parse) logs the session out: no user, no token, both entries
    removed from [localStorage], loading finished. The [Authorization]
    header the effect had already set with that token stays in place. *)
Theorem stale_session_is_dropped (storage : gmap string string) (t : string) :
  storage !! "token"%string = Some t → t ≠ ""%string →
  (storage !! "user"%string = None ∨
   ∃ d, storage !! "user"%string = Some d ∧
        (d = ""%string ∨ d = "undefined"%string ∨ d = "null"%string ∨
         JSON_parse d = None)) →
  mount storage
    = mkAuth None None false (delete "user" (delete "token" storage))
             (Some (bearer t)).
Proof.
  apply stale_session_dropped_aux.
Qed.


End AuthProviderFacts.

Lemma login_survives_reload_witness :
  user (settle (token (@freshAuth toyJson))
          (@login toyJson freshAuth "{id:1}"%string "abc"%string))
    = Some "{id:1}"%string.
Proof.
  exact (proj1
    (@login_survives_reload toyJson freshAuth "{id:1}"%string "abc"%string
       ltac:(discriminate) eq_refl eq_refl
       ltac:(split_and!; discriminate))).
Defined.

Lemma stale_session_is_dropped_witness :
  token (@mount toyJson storageWithNull) = None.
Proof.
  rewrite (@stale_session_is_dropped toyJson storageWithNull "abc"%string).
  - reflexivity.
  - vm_compute. reflexivity.
  - discriminate.
  - right. exists "null"%string. split; [vm_compute; reflexivity |].
    right. right. left. reflexivity.
Defined.


(** * Properties of the timeline countdown *)



